(** * Connection pools of transport/grpc/pool.go

    A shallow embedding of the two [ConnPool] strategies ([singleConnPool],
    [roundRobinConnPool]) and of [multiError], followed by the properties
    of selection, teardown and error rendering.

    Conventions of the embedding:
    - a [uint32] is a [Z] in [0, 2^32) and every operation on it writes its
      wrap-around out;
    - a Go [string] is a [string] (a sequence of bytes);
    - a value of the interface type [error] is an [option]: [None] is [nil];
    - a method with a pointer receiver that mutates its receiver returns
      the new receiver next to its result;
    - a run-time panic is the [Panic] result;
    - [*grpc.ClientConn] is opaque: closing one acts on a state of the
      outside world that the pool never inspects. *)

From Stdlib Require Import ZArith List String Ascii Bool Lia Permutation.
From Stdlib Require Import DecimalString DecimalZ DecimalPos.
Import ListNotations.

Local Open Scope string_scope.
Local Open Scope list_scope.
Local Open Scope Z_scope.

(** ** Go primitives used by the file *)

(** The conversion [uint32(x)]: the low 32 bits. *)
Definition uint32 (x : Z) : Z := x mod 2 ^ 32.

(** [atomic.AddUint32(&v, delta)]: stores and returns the wrapped sum. *)
Definition atomic_AddUint32 (v delta : Z) : Z := uint32 (v + delta).

(** The run-time panics an index expression [a[i % n]] can raise. *)
Inductive panic : Type :=
| IntegerDivideByZero
| IndexOutOfRange.

Inductive result (A : Type) : Type :=
| Ok (a : A)
| Panic (p : panic).

Arguments Ok {A} a.
Arguments Panic {A} p.

Definition bind {A B : Type} (r : result A) (k : A -> result B) : result B :=
  match r with
  | Ok a => k a
  | Panic p => Panic p
  end.

Notation "x <- r ;; k" := (bind r (fun x => k))
  (at level 61, r at next level, right associativity).

(** The verb [%d] of package fmt on an [int]: signed decimal digits. *)
Definition fmt_d (z : Z) : string := NilZero.string_of_int (Z.to_int z).

(** Operands of [fmt.Sprintf]. *)
Inductive operand : Type :=
| OpString (s : string)
| OpInt (z : Z).

(** [fmt.Sprintf] for the verbs [%s], [%d] and [%%]; a verb without a
    matching operand is copied to the output. *)
Fixpoint Sprintf (format : string) (a : list operand) : string :=
  match format with
  | EmptyString => EmptyString
  | String c EmptyString => String c EmptyString
  | String c (String v rest as tail) =>
      if Ascii.eqb c "%" then
        match a with
        | OpString s :: a' =>
            if Ascii.eqb v "s" then (s ++ Sprintf rest a')%string
            else String c (String v (Sprintf rest a))
        | OpInt z :: a' =>
            if Ascii.eqb v "d" then (fmt_d z ++ Sprintf rest a')%string
            else String c (String v (Sprintf rest a))
        | [] =>
            if Ascii.eqb v "%" then String v (Sprintf rest a)
            else String c (String v (Sprintf rest a))
        end
      else String c (Sprintf tail a)
  end.

(** The interface [error]: anything with an [Error() string] method. *)
Class error_iface (E : Type) : Type := Error : E -> string.

Section Model.

(** [*grpc.ClientConn] and the error values its [Close] produces. *)
Variable ClientConn : Type.
Variable Err : Type.
Context `{ErrError : error_iface Err}.

(** [conn.Close()], acting on a state [W] of the outside world. *)
Definition closer (W : Type) : Type := ClientConn -> W -> option Err * W.

(** *** multiError *)

(** [type multiError []error]. *)
Definition multiError : Type := list (option Err).

(** One iteration of [for _, e := range m] on the pair [(s, n)]. *)
Definition Error_range (acc : string * Z) (e : option Err) : string * Z :=
  let (s, n) := acc in
  match e with
  | Some v => ((if n =? 0 then Error v else s), n + 1)
  | None => (s, n)
  end.

(** [func (m multiError) Error() string].  The count [n] is an [int]
    bounded by [len(m)], so it never wraps. *)
Definition multiError_Error (m : multiError) : string :=
  let (s, n) := fold_left Error_range m (EmptyString, 0) in
  match n with
  | 0 => "(0 errors)"
  | 1 => s
  | 2 => (s ++ " (and 1 other error)")%string
  | _ => Sprintf "%s (and %d other errors)" [OpString s; OpInt (n - 1)]
  end.

#[export] Instance multiError_error : error_iface multiError :=
  multiError_Error.

(** The non-nil entries of a [multiError], in order. *)
Fixpoint nonnil (m : multiError) : list Err :=
  match m with
  | [] => []
  | Some v :: m' => v :: nonnil m'
  | None :: m' => nonnil m'
  end.

(** *** singleConnPool *)

Record singleConnPool : Type := { conn : ClientConn }.

(** [func (p *singleConnPool) Conn() *grpc.ClientConn]. *)
Definition singleConnPool_Conn (p : singleConnPool) : ClientConn := conn p.

(** [func (p *singleConnPool) Close() error]. *)
Definition singleConnPool_Close {W : Type} (close : closer W)
    (p : singleConnPool) (w : W) : option Err * W :=
  close (conn p) w.

(** *** roundRobinConnPool *)

Record roundRobinConnPool : Type := {
  conns : list ClientConn;
  idx : Z  (* uint32, access via sync/atomic *)
}.

(** Modelled from the spec: the constructor, which lives outside pool.go
    ("constructed with an ordered sequence of N handles and an internal
    counter initialized to zero"). *)
Definition roundRobinConnPool_new (cs : list ClientConn) : roundRobinConnPool :=
  {| conns := cs; idx := 0 |}.

(** [func (p *roundRobinConnPool) Conn() *grpc.ClientConn]:
    [i := atomic.AddUint32(&p.idx, 1)] then
    [p.conns[i%uint32(len(p.conns))]]. *)
Definition roundRobinConnPool_Conn (p : roundRobinConnPool)
    : result (ClientConn * roundRobinConnPool) :=
  let i := atomic_AddUint32 (idx p) 1 in
  let p' := {| conns := conns p; idx := i |} in
  let n := uint32 (Z.of_nat (List.length (conns p))) in
  if n =? 0 then Panic IntegerDivideByZero
  else
    match nth_error (conns p) (Z.to_nat (i mod n)) with
    | Some c => Ok (c, p')
    | None => Panic IndexOutOfRange
    end.

(** One iteration of [for _, conn := range p.conns] on [errs] and the
    world. *)
Definition Close_range {W : Type} (close : closer W)
    (acc : multiError * W) (c : ClientConn) : multiError * W :=
  let (errs, w) := acc in
  let (err, w') := close c w in
  match err with
  | Some _ => (errs ++ [err], w')
  | None => (errs, w')
  end.

(** [func (p *roundRobinConnPool) Close() error]; the result is [nil] or
    a [multiError]. *)
Definition roundRobinConnPool_Close {W : Type} (close : closer W)
    (p : roundRobinConnPool) (w : W) : option multiError * W :=
  let (errs, w') := fold_left (Close_range close) (conns p) ([], w) in
  if Z.of_nat (List.length errs) =? 0 then (None, w') else (Some errs, w').

(** *** The interface ConnPool and its two implementations *)

Inductive ConnPool : Type :=
| Single (p : singleConnPool)
| RoundRobin (p : roundRobinConnPool).

(** What [Close() error] of a [ConnPool] can hold when it is not [nil]. *)
Inductive close_error : Type :=
| ConnError (e : Err)
| MultiError (m : multiError).

#[export] Instance close_error_error : error_iface close_error :=
  fun e =>
    match e with
    | ConnError e' => Error e'
    | MultiError m => multiError_Error m
    end.

(** [Conn() *grpc.ClientConn] by dynamic dispatch. *)
Definition Conn (p : ConnPool) : result (ClientConn * ConnPool) :=
  match p with
  | Single s => Ok (singleConnPool_Conn s, Single s)
  | RoundRobin r =>
      cr <- roundRobinConnPool_Conn r ;; Ok (fst cr, RoundRobin (snd cr))
  end.

(** [Close() error] by dynamic dispatch; the constructor of [close_error]
    only records the dynamic type of the interface value returned. *)
Definition Close {W : Type} (close : closer W) (p : ConnPool) (w : W)
    : option close_error * W :=
  match p with
  | Single s =>
      let (err, w') := singleConnPool_Close close s w in
      (option_map ConnError err, w')
  | RoundRobin r =>
      let (err, w') := roundRobinConnPool_Close close r w in
      (option_map MultiError err, w')
  end.

(** *** Sequences of calls *)

(** The receiver after one more [Conn()]. *)
Definition Conn_next (r : result ConnPool) : result ConnPool :=
  p <- r ;; cp <- Conn p ;; Ok (snd cp).

(** The receiver after [k] calls of [Conn()]. *)
Definition after_calls (k : N) (p : ConnPool) : result ConnPool :=
  N.iter k Conn_next (Ok p).

(** What the [K]-th call of [Conn()] returns, counting from 1. *)
Definition kth_Conn (K : positive) (p : ConnPool) : result ClientConn :=
  p' <- after_calls (Pos.pred_N K) p ;; cp <- Conn p' ;; Ok (fst cp).

(** [n] calls of [Conn()] in a row: the handles they return, in order,
    and the receiver they leave. *)
Fixpoint Conn_many (n : nat) (p : ConnPool)
    : result (list ClientConn * ConnPool) :=
  match n with
  | O => Ok ([], p)
  | S n' =>
      cp <- Conn p ;;
      rest <- Conn_many n' (snd cp) ;;
      Ok (fst cp :: fst rest, snd rest)
  end.

(** *** Observing the calls made on the handles *)

(** A record of every [conn.Close()] made: the handle and its outcome. *)
Definition close_log : Type := list (ClientConn * option Err).

(** [close], recording each call at the end of the log. *)
Definition observed {W : Type} (close : closer W) : closer (W * close_log) :=
  fun c wl =>
    let (err, w') := close c (fst wl) in
    (err, (w', snd wl ++ [(c, err)])).

(** The failures of a log: the outcomes that are not [nil]. *)
Definition failures (l : close_log) : multiError :=
  filter (fun e => match e with Some _ => true | None => false end)
         (map snd l).

End Model.

Arguments nonnil {Err} m.
Arguments conn {ClientConn} s.
Arguments conns {ClientConn} r.
Arguments idx {ClientConn} r.
Arguments Build_singleConnPool {ClientConn} conn.
Arguments Build_roundRobinConnPool {ClientConn} conns idx.
Arguments singleConnPool_Conn {ClientConn} p.
Arguments singleConnPool_Close {ClientConn Err W} close p w.
Arguments roundRobinConnPool_new {ClientConn} cs.
Arguments roundRobinConnPool_Conn {ClientConn} p.
Arguments Close_range {ClientConn Err W} close acc c.
Arguments roundRobinConnPool_Close {ClientConn Err W} close p w.
Arguments Single {ClientConn} p.
Arguments RoundRobin {ClientConn} p.
Arguments ConnError {Err} e.
Arguments MultiError {Err} m.
Arguments Conn {ClientConn} p.
Arguments Close {ClientConn Err W} close p w.
Arguments Conn_next {ClientConn} r.
Arguments after_calls {ClientConn} k p.
Arguments kth_Conn {ClientConn} K p.
Arguments Conn_many {ClientConn} n p.
Arguments observed {ClientConn Err W} close c wl.
Arguments failures {ClientConn Err} l.
Arguments Error_range {Err ErrError} acc e.
Arguments multiError_Error {Err ErrError} m.

(** ** Concrete handles and errors for the examples *)

(** [errors.New(text)]: an error whose message is [text]. *)
#[export] Instance errorString : error_iface string := fun text => text.

(** A world in which the outcome of closing a handle is scripted per
    handle, and which counts the calls made. *)
Definition scripted (outcome : string -> option string)
    : closer string string nat :=
  fun c calls => (outcome c, S calls).

Definition demo_outcome (c : string) : option string :=
  if String.eqb c "B" then Some "b failed"
  else if String.eqb c "C" then Some "c failed"
  else None.

(** A handle sequence one longer than a [uint32] can count, and one of
    exactly [2^32] handles (the same connection may be pooled repeatedly). *)
Definition oversized : list string := "A" :: repeat "B" (Z.to_nat 4294967296).
Definition unaddressable : list string := repeat "A" (Z.to_nat 4294967296).

(** * Properties *)

(** ** Arithmetic of the counter *)

Lemma uint32_range (x : Z) : 0 <= uint32 x < 2 ^ 32.
Proof. unfold uint32. apply Z.mod_pos_bound. lia. Qed.

Lemma uint32_small (x : Z) : 0 <= x < 2 ^ 32 -> uint32 x = x.
Proof. intros H. unfold uint32. now apply Z.mod_small. Qed.

Lemma uint32_add_l (x y : Z) : uint32 (uint32 x + y) = uint32 (x + y).
Proof. unfold uint32. now rewrite Zplus_mod_idemp_l. Qed.

(** [switch n] with the cases 0, 1 and 2 falls through from 3 on. *)
Lemma switch_default {A : Type} (n : Z) (a b c d : A) :
  3 <= n ->
  match n with 0 => a | 1 => b | 2 => c | _ => d end = d.
Proof.
  intros H. destruct n as [|q|q]; try lia.
  destruct q as [[q|q|]|[q|q|]|]; try lia; reflexivity.
Qed.

(** [%d] prints the decimal digits of its operand: reading them back
    gives the operand. *)
Lemma fmt_d_decimal (z : Z) :
  option_map Z.of_int (NilZero.int_of_string (fmt_d z)) = Some z.
Proof.
  unfold fmt_d. rewrite NilZero.isi.
  - cbn. now rewrite DecimalZ.of_to.
  - destruct z; cbn; try discriminate.
    intros H. injection H as H.
    now apply DecimalPos.Unsigned.to_uint_nonnil in H.
  - destruct z; cbn; try discriminate.
    intros H. injection H as H.
    now apply DecimalPos.Unsigned.to_uint_nonnil in H.
Qed.

Example fmt_d_examples :
  fmt_d 0 = "0" /\ fmt_d 2 = "2" /\ fmt_d 11 = "11" /\ fmt_d (-3) = "-3".
Proof. repeat split. Qed.

Section Facts.

Context {ClientConn Err : Type} `{ErrError : error_iface Err}.

(** ** multiError *)

Lemma fold_Error_range (m : multiError Err) (s : string) (n : Z) :
  0 <= n ->
  fold_left Error_range m (s, n) =
  ((if n =? 0
    then match nonnil m with [] => s | e :: _ => Error e end
    else s),
   n + Z.of_nat (List.length (nonnil m))).
Proof.
  revert s n. induction m as [|[v|] m IH]; intros s n Hn; cbn [fold_left nonnil].
  - cbn. destruct (n =? 0); f_equal; lia.
  - unfold Error_range at 2. rewrite IH by lia.
    replace (n + 1 =? 0) with false by (symmetry; apply Z.eqb_neq; lia).
    cbn [List.length]. destruct (n =? 0); f_equal; lia.
  - unfold Error_range at 2. now rewrite IH.
Qed.

Lemma Sprintf_others (s : string) (k : Z) :
  Sprintf "%s (and %d other errors)" [OpString s; OpInt k] =
  (s ++ " (and " ++ fmt_d k ++ " other errors)")%string.
Proof.
  reflexivity.
Qed.

Lemma prefix_refl (s : string) : String.prefix s s = true.
Proof.
  induction s as [|a s IH]; cbn; [reflexivity|].
  destruct (ascii_dec a a) as [_|Hne]; [exact IH|now elim Hne].
Qed.

Lemma nonnil_map_Some (l : list Err) : nonnil (map Some l) = l.
Proof. induction l as [|e l IH]; cbn; [reflexivity|now rewrite IH]. Qed.

Lemma prefix_app (s t : string) : String.prefix s (s ++ t) = true.
Proof.
  induction s as [|a s IH]; cbn; [now destruct t|].
  destruct (ascii_dec a a) as [_|Hne]; [exact IH|now elim Hne].
Qed.

(** The rendering of a [multiError] without nil entries and with a first
    entry. *)
Lemma multiError_Error_failures (e : Err) (rest : list Err) :
  multiError_Error (Some e :: map Some rest) =
  match rest with
  | [] => Error e
  | [_] => (Error e ++ " (and 1 other error)")%string
  | _ =>
      (Error e ++ " (and " ++ fmt_d (Z.of_nat (List.length rest))
         ++ " other errors)")%string
  end.
Proof.
  unfold multiError_Error. rewrite fold_Error_range by lia.
  change (Some e :: map Some rest) with (map Some (e :: rest)).
  rewrite nonnil_map_Some. cbn [Z.eqb Z.add].
  destruct rest as [|e2 [|e3 rest]]; try reflexivity.
  rewrite switch_default by (cbn [List.length]; lia).
  rewrite Sprintf_others.
  replace (Z.of_nat (List.length (e :: e2 :: e3 :: rest)) - 1)
    with (Z.of_nat (List.length (e2 :: e3 :: rest)))
    by (cbn [List.length]; lia).
  reflexivity.
Qed.

(** C2: the rendering of a [multiError] depends only on its non-nil
    entries: none gives "(0 errors)", one gives its message, two give the
    first message and " (and 1 other error)", n > 2 give the first
    message and " (and N other errors)" with N = n - 1. *)
Theorem multiError_Error_rendering (m : multiError Err) :
  let n := Z.of_nat (List.length (nonnil m)) in
  multiError_Error m =
  match nonnil m with
  | [] => "(0 errors)"
  | [e] => Error e
  | [e; _] => (Error e ++ " (and 1 other error)")%string
  | e :: _ =>
      (Error e ++ " (and " ++ fmt_d (n - 1) ++ " other errors)")%string
  end.
Proof.
  intros n. subst n.
  unfold multiError_Error. rewrite fold_Error_range by lia.
  cbn [Z.eqb Z.add].
  destruct (nonnil m) as [|e [|e2 [|e3 rest]]]; try reflexivity.
  rewrite switch_default by (cbn [List.length]; lia).
  apply Sprintf_others.
Qed.

(** ** Selection *)

(** The divisor of the index expression: [uint32(len(p.conns))]. *)
Lemma divisor_le (cs : list ClientConn) :
  uint32 (Z.of_nat (List.length cs)) <= Z.of_nat (List.length cs).
Proof. unfold uint32. apply Z.mod_le; lia. Qed.

Lemma divisor_small (cs : list ClientConn) :
  Z.of_nat (List.length cs) < 2 ^ 32 ->
  uint32 (Z.of_nat (List.length cs)) = Z.of_nat (List.length cs).
Proof. intros H. apply uint32_small. lia. Qed.

(** With a divisor that is not zero the call returns, stores the wrapped
    successor of the counter and selects by it. *)
Lemma roundRobinConnPool_Conn_Ok (p : roundRobinConnPool ClientConn) :
  uint32 (Z.of_nat (List.length (conns p))) <> 0 ->
  exists c,
    roundRobinConnPool_Conn p =
      Ok (c, {| conns := conns p; idx := uint32 (idx p + 1) |}) /\
    nth_error (conns p)
      (Z.to_nat (uint32 (idx p + 1)
                 mod uint32 (Z.of_nat (List.length (conns p))))) = Some c.
Proof.
  intros Hn. unfold roundRobinConnPool_Conn, atomic_AddUint32.
  apply Z.eqb_neq in Hn as Hb. rewrite Hb.
  pose proof (uint32_range (Z.of_nat (List.length (conns p)))) as Hr.
  pose proof (divisor_le (conns p)) as Hle.
  set (n := uint32 (Z.of_nat (List.length (conns p)))) in *.
  assert (Hi : 0 <= uint32 (idx p + 1) mod n < n)
    by (apply Z.mod_pos_bound; lia).
  destruct (nth_error (conns p) (Z.to_nat (uint32 (idx p + 1) mod n)))
    as [c|] eqn:E.
  - now exists c.
  - apply nth_error_None in E. lia.
Qed.

(** With a divisor of zero the call panics. *)
Lemma roundRobinConnPool_Conn_zero (p : roundRobinConnPool ClientConn) :
  uint32 (Z.of_nat (List.length (conns p))) = 0 ->
  roundRobinConnPool_Conn p = Panic IntegerDivideByZero.
Proof.
  intros Hn. unfold roundRobinConnPool_Conn. now rewrite Hn.
Qed.

(** The receiver after [k] calls: only the counter moved, by [k]. *)
Lemma after_calls_roundRobin (cs : list ClientConn) (i : Z) (k : N) :
  uint32 (Z.of_nat (List.length cs)) <> 0 ->
  0 <= i < 2 ^ 32 ->
  after_calls k (RoundRobin {| conns := cs; idx := i |}) =
  Ok (RoundRobin {| conns := cs; idx := uint32 (i + Z.of_N k) |}).
Proof.
  intros Hn Hi. unfold after_calls.
  induction k as [|k IH] using N.peano_ind.
  - cbn. now rewrite Z.add_0_r, uint32_small.
  - rewrite N.iter_succ, IH. cbn [Conn_next bind Conn].
    destruct (roundRobinConnPool_Conn_Ok
                {| conns := cs; idx := uint32 (i + Z.of_N k) |} Hn)
      as (c & E & _).
    rewrite E. cbn [bind fst snd idx conns]. rewrite uint32_add_l.
    rewrite N2Z.inj_succ. unfold Z.succ. now rewrite Z.add_assoc.
Qed.

(** The [K]-th call on a fresh pool selects by [K] wrapped to 32 bits. *)
Lemma kth_Conn_roundRobin (cs : list ClientConn) (K : positive) :
  uint32 (Z.of_nat (List.length cs)) <> 0 ->
  exists c,
    kth_Conn K (RoundRobin (roundRobinConnPool_new cs)) = Ok c /\
    nth_error cs
      (Z.to_nat (uint32 (Z.pos K)
                 mod uint32 (Z.of_nat (List.length cs)))) = Some c.
Proof.
  intros Hn. unfold kth_Conn, roundRobinConnPool_new.
  rewrite after_calls_roundRobin by (try assumption; lia).
  cbn [bind Conn].
  destruct (roundRobinConnPool_Conn_Ok
              {| conns := cs; idx := uint32 (0 + Z.of_N (Pos.pred_N K)) |} Hn)
    as (c & E & Hc).
  rewrite E. cbn in *. exists c. split; [reflexivity|].
  rewrite uint32_add_l in Hc.
  replace (Z.of_N (Pos.pred_N K) + 1) with (Z.pos K) in Hc
    by (rewrite N.pos_pred_spec; lia).
  exact Hc.
Qed.

(** C1, amended: for a round-robin pool over N handles with
    1 <= N < 2^32, every [Conn()] stores the counter incremented by one
    (wrapped to 32 bits; plainly plus one below the last value) and
    returns the handle at index (new counter mod N); the first call on a
    fresh pool returns the handle at index 1 mod N, the second handle
    when N > 1; on the pool [A, B, C] the first four calls return
    B, C, A, B. *)
Theorem roundRobinConnPool_Conn_contract (cs : list ClientConn) (i : Z) :
  1 <= Z.of_nat (List.length cs) < 2 ^ 32 ->
  (exists c,
      roundRobinConnPool_Conn {| conns := cs; idx := i |} =
        Ok (c, {| conns := cs; idx := uint32 (i + 1) |}) /\
      nth_error cs
        (Z.to_nat (uint32 (i + 1) mod Z.of_nat (List.length cs))) = Some c) /\
  (0 <= i < 2 ^ 32 - 1 -> uint32 (i + 1) = i + 1) /\
  (exists c1,
      kth_Conn 1 (RoundRobin (roundRobinConnPool_new cs)) = Ok c1 /\
      nth_error cs (Z.to_nat (1 mod Z.of_nat (List.length cs))) = Some c1 /\
      (1 < Z.of_nat (List.length cs) -> nth_error cs 1 = Some c1)) /\
  (forall A B C : ClientConn,
      cs = [A; B; C] ->
      map (fun K => kth_Conn K (RoundRobin (roundRobinConnPool_new cs)))
          [1; 2; 3; 4]%positive
      = [Ok B; Ok C; Ok A; Ok B]).
Proof.
  intros HN.
  assert (Hd : uint32 (Z.of_nat (List.length cs)) = Z.of_nat (List.length cs))
    by (apply divisor_small; lia).
  assert (Hn : uint32 (Z.of_nat (List.length cs)) <> 0) by lia.
  repeat split.
  - destruct (roundRobinConnPool_Conn_Ok {| conns := cs; idx := i |} Hn)
      as (c & E & Hc).
    cbn [conns idx] in *. rewrite Hd in Hc. now exists c.
  - intros Hi. apply uint32_small. lia.
  - destruct (kth_Conn_roundRobin cs 1 Hn) as (c & E & Hc).
    rewrite Hd in Hc. change (uint32 1) with 1 in Hc.
    exists c. repeat split; try assumption.
    intros H1. rewrite Z.mod_small in Hc by lia. exact Hc.
  - intros A B C ->. reflexivity.
Qed.

(** C9, amended: whatever the pool and its counter, [Conn()] never takes
    the out-of-range branch; and when the handle count N is not a
    multiple of 2^32 (so for every 1 <= N < 2^32) the index computed from
    any counter value is below N and [Conn()] returns a handle of the
    original sequence. *)
Theorem roundRobinConnPool_Conn_in_bounds (p : roundRobinConnPool ClientConn) :
  roundRobinConnPool_Conn p <> Panic IndexOutOfRange /\
  (uint32 (Z.of_nat (List.length (conns p))) <> 0 ->
   (forall i : Z,
       0 <= i mod uint32 (Z.of_nat (List.length (conns p)))
         < Z.of_nat (List.length (conns p))) /\
   exists c p',
     roundRobinConnPool_Conn p = Ok (c, p') /\
     conns p' = conns p /\ In c (conns p)).
Proof.
  split.
  - destruct (Z.eq_dec (uint32 (Z.of_nat (List.length (conns p)))) 0) as [Hz|Hn].
    + rewrite roundRobinConnPool_Conn_zero by assumption. discriminate.
    + destruct (roundRobinConnPool_Conn_Ok p Hn) as (c & E & _).
      rewrite E. discriminate.
  - intros Hn. split.
    + intros i.
      pose proof (uint32_range (Z.of_nat (List.length (conns p)))) as Hr.
      pose proof (divisor_le (conns p)) as Hle.
      pose proof (Z.mod_pos_bound i
                    (uint32 (Z.of_nat (List.length (conns p))))).
      lia.
    + destruct (roundRobinConnPool_Conn_Ok p Hn) as (c & E & Hc).
      exists c, {| conns := conns p; idx := uint32 (idx p + 1) |}.
      repeat split; try assumption.
      eapply nth_error_In; eassumption.
Qed.

(** C6, amended: [Conn()] of a single-connection pool returns its handle,
    never fails and leaves the pool as it was; [Conn()] of a round-robin
    pool whose handle count is not a multiple of 2^32 returns a handle of
    the pool, never fails, and leaves the handle sequence as it was: its
    one effect is the counter, advanced by one. *)
Theorem Conn_effects (p : ConnPool ClientConn) :
  match p with
  | Single s => Conn p = Ok (conn s, p)
  | RoundRobin r =>
      uint32 (Z.of_nat (List.length (conns r))) <> 0 ->
      exists c,
        Conn p = Ok (c, RoundRobin {| conns := conns r;
                                      idx := uint32 (idx r + 1) |}) /\
        In c (conns r)
  end.
Proof.
  destruct p as [s|r].
  - reflexivity.
  - intros Hn. destruct (roundRobinConnPool_Conn_Ok r Hn) as (c & E & Hc).
    exists c. split.
    + cbn [Conn]. rewrite E. reflexivity.
    + eapply nth_error_In; eassumption.
Qed.

(** C7, amended: for 1 <= N < 2^32 and every call number K >= 1, the
    K-th [Conn()] on a fresh pool returns the handle at index
    (K mod 2^32) mod N, so the wrap of the counter never faults; that
    index is K mod N when K < 2^32 or when N divides 2^32. *)
Theorem kth_Conn_wraps (cs : list ClientConn) (K : positive) :
  1 <= Z.of_nat (List.length cs) < 2 ^ 32 ->
  exists c,
    kth_Conn K (RoundRobin (roundRobinConnPool_new cs)) = Ok c /\
    nth_error cs
      (Z.to_nat ((Z.pos K mod 2 ^ 32) mod Z.of_nat (List.length cs)))
      = Some c /\
    (Z.pos K < 2 ^ 32 \/ (Z.of_nat (List.length cs) | 2 ^ 32) ->
     nth_error cs (Z.to_nat (Z.pos K mod Z.of_nat (List.length cs)))
     = Some c).
Proof.
  intros HN.
  assert (Hd : uint32 (Z.of_nat (List.length cs)) = Z.of_nat (List.length cs))
    by (apply divisor_small; lia).
  assert (Hn : uint32 (Z.of_nat (List.length cs)) <> 0) by lia.
  destruct (kth_Conn_roundRobin cs K Hn) as (c & E & Hc).
  rewrite Hd in Hc. unfold uint32 in Hc.
  exists c. repeat split; try assumption.
  intros [Hk|Hdiv].
  - rewrite (Z.mod_small (Z.pos K) (2 ^ 32)) in Hc by lia. exact Hc.
  - rewrite Z.mod_mod_divide in Hc by assumption. exact Hc.
Qed.

(** ** Teardown *)

Lemma failures_app (l1 l2 : close_log ClientConn Err) :
  failures (l1 ++ l2) = failures l1 ++ failures l2.
Proof. unfold failures. now rewrite map_app, filter_app. Qed.

Lemma failures_some (l : close_log ClientConn Err) :
  exists es : list Err, failures l = map Some es.
Proof.
  induction l as [|[c [e|]] l (es & IH)].
  - now exists [].
  - exists (e :: es). unfold failures in *. cbn. now rewrite IH.
  - exists es. exact IH.
Qed.

Lemma failures_nil (l : close_log ClientConn Err) :
  failures l = [] <-> Forall (fun co => snd co = None) l.
Proof.
  induction l as [|[c [e|]] l IH]; unfold failures in *; cbn.
  - split; [constructor|reflexivity].
  - split; [discriminate|]. intros H. inversion H. discriminate.
  - rewrite IH. split; intros H.
    + constructor; [reflexivity|assumption].
    + now inversion H.
Qed.

(** The loop of [Close] under observation: the same errors and the same
    world as without, and a log that grew by one entry per handle, in
    the order of the handles; the errors gathered are the failures of
    that log. *)
Lemma Close_range_observed {W : Type} (close : closer ClientConn Err W)
    (cs : list ClientConn) (errs : list (option Err)) (w : W)
    (log : close_log ClientConn Err) :
  exists log',
    fold_left (Close_range (observed close)) cs (errs, (w, log)) =
      (fst (fold_left (Close_range close) cs (errs, w)),
       (snd (fold_left (Close_range close) cs (errs, w)), log ++ log')) /\
    map fst log' = cs /\
    fst (fold_left (Close_range close) cs (errs, w)) = errs ++ failures log'.
Proof.
  revert errs w log. induction cs as [|c cs IH]; intros errs w log.
  - exists []. cbn. now rewrite !app_nil_r.
  - cbn [fold_left]. destruct (close c w) as [[e|] w1] eqn:Ec.
    + assert (H1 : Close_range (observed close) (errs, (w, log)) c =
                   (errs ++ [Some e], (w1, log ++ [(c, Some e)])))
        by (unfold Close_range, observed; cbn [fst snd]; now rewrite Ec).
      assert (H2 : Close_range close (errs, w) c = (errs ++ [Some e], w1))
        by (unfold Close_range; now rewrite Ec).
      rewrite H1, H2.
      destruct (IH (errs ++ [Some e]) w1 (log ++ [(c, Some e)]))
        as (log' & E & Hm & Hf).
      exists ((c, Some e) :: log'). split; [|split].
      * rewrite <- app_assoc in E. exact E.
      * cbn [map fst]. now f_equal.
      * rewrite <- app_assoc in Hf. exact Hf.
    + assert (H1 : Close_range (observed close) (errs, (w, log)) c =
                   (errs, (w1, log ++ [(c, None)])))
        by (unfold Close_range, observed; cbn [fst snd]; now rewrite Ec).
      assert (H2 : Close_range close (errs, w) c = (errs, w1))
        by (unfold Close_range; now rewrite Ec).
      rewrite H1, H2.
      destruct (IH errs w1 (log ++ [(c, None)])) as (log' & E & Hm & Hf).
      exists ((c, None) :: log'). split; [|split].
      * rewrite <- app_assoc in E. exact E.
      * cbn [map fst]. now f_equal.
      * exact Hf.
Qed.

(** [Close] of the round-robin pool, by the log of an observed run. *)
Lemma roundRobinConnPool_Close_observed {W : Type}
    (close : closer ClientConn Err W) (p : roundRobinConnPool ClientConn)
    (w : W) (log : close_log ClientConn Err) :
  exists log',
    roundRobinConnPool_Close (observed close) p (w, log) =
      (fst (roundRobinConnPool_Close close p w),
       (snd (roundRobinConnPool_Close close p w), log ++ log')) /\
    map fst log' = conns p /\
    fst (roundRobinConnPool_Close close p w) =
      match failures log' with
      | [] => None
      | _ :: _ => Some (failures log')
      end.
Proof.
  destruct (Close_range_observed close (conns p) [] w log)
    as (log' & E & Hm & Hf).
  exists log'. unfold roundRobinConnPool_Close. rewrite E.
  destruct (fold_left (Close_range close) (conns p) ([], w)) as [errs w'].
  cbn [fst snd app] in *. subst errs.
  destruct (failures log') as [|e es]; cbn; auto.
Qed.

(** C3: [Close()] of a round-robin pool calls [Close] on every handle
    exactly once, in the order of the sequence, whatever each call
    returns: the calls an observer records are the handle sequence
    itself, and observing changes neither result nor world. *)
Theorem roundRobinConnPool_Close_closes_each {W : Type}
    (close : closer ClientConn Err W) (p : roundRobinConnPool ClientConn)
    (w : W) (log : close_log ClientConn Err) :
  exists log',
    roundRobinConnPool_Close (observed close) p (w, log) =
      (fst (roundRobinConnPool_Close close p w),
       (snd (roundRobinConnPool_Close close p w), log ++ log')) /\
    map fst log' = conns p /\
    List.length log' = List.length (conns p).
Proof.
  destruct (roundRobinConnPool_Close_observed close p w log)
    as (log' & E & Hm & _).
  exists log'. repeat split; try assumption.
  now rewrite <- Hm, length_map.
Qed.

(** C4: [Close()] of a round-robin pool returns [nil] exactly when every
    handle closed without error; otherwise it returns the [multiError]
    whose entries are the non-nil outcomes of the calls, in the order
    met, each as the handle returned it. *)
Theorem roundRobinConnPool_Close_result {W : Type}
    (close : closer ClientConn Err W) (p : roundRobinConnPool ClientConn)
    (w : W) :
  exists log,
    roundRobinConnPool_Close (observed close) p (w, []) =
      (fst (roundRobinConnPool_Close close p w),
       (snd (roundRobinConnPool_Close close p w), log)) /\
    map fst log = conns p /\
    (fst (roundRobinConnPool_Close close p w) = None <->
     Forall (fun co => snd co = None) log) /\
    fst (roundRobinConnPool_Close close p w) =
      match failures log with
      | [] => None
      | _ :: _ => Some (failures log)
      end.
Proof.
  destruct (roundRobinConnPool_Close_observed close p w [])
    as (log & E & Hm & Hr).
  exists log. repeat split; try assumption.
  - intros H. apply failures_nil. rewrite Hr in H.
    destruct (failures log); [reflexivity|discriminate].
  - intros H. apply failures_nil in H. now rewrite Hr, H.
Qed.

(** C5: every [Conn()] of a single-connection pool returns its one
    handle and leaves the pool as it was; [Close()] makes one call,
    [Close] of that handle, and returns what it returned, [nil]
    included, and leaves the world as that call left it. *)
Theorem singleConnPool_contract {W : Type}
    (close : closer ClientConn Err W) (s : singleConnPool ClientConn)
    (w : W) (K : positive) :
  singleConnPool_Conn s = conn s /\
  Conn (Single s) = Ok (conn s, Single s) /\
  kth_Conn K (Single s) = Ok (conn s) /\
  singleConnPool_Close close s w = close (conn s) w /\
  singleConnPool_Close (observed close) s (w, []) =
    (fst (close (conn s) w),
     (snd (close (conn s) w), [(conn s, fst (close (conn s) w))])).
Proof.
  repeat split.
  - unfold kth_Conn.
    assert (H : forall k, after_calls k (Single s) = Ok (Single s)).
    { intros k. unfold after_calls.
      induction k as [|k IH] using N.peano_ind; [reflexivity|].
      now rewrite N.iter_succ, IH. }
    now rewrite H.
  - unfold singleConnPool_Close, observed. cbn [fst snd app].
    now destruct (close (conn s) w).
Qed.

(** C10: an error returned by [Close()] of a round-robin pool is a
    [multiError] with at least one entry and no nil entry; its rendering
    counts at least one error, so it is not produced by the case
    "(0 errors)", and it begins with the message of the first failure
    met in the order of the handles. *)
Theorem roundRobinConnPool_Close_error {W : Type}
    (close : closer ClientConn Err W) (p : roundRobinConnPool ClientConn)
    (w : W) (m : multiError Err) :
  fst (roundRobinConnPool_Close close p w) = Some m ->
  exists (log : close_log ClientConn Err) (e : Err) (rest : list Err),
    roundRobinConnPool_Close (observed close) p (w, []) =
      (Some m, (snd (roundRobinConnPool_Close close p w), log)) /\
    failures log = m /\
    m = Some e :: map Some rest /\
    ~ In None m /\
    snd (fold_left Error_range m (EmptyString, 0)) =
      1 + Z.of_nat (List.length rest) /\
    multiError_Error m =
      match rest with
      | [] => Error e
      | [_] => (Error e ++ " (and 1 other error)")%string
      | _ =>
          (Error e ++ " (and " ++ fmt_d (Z.of_nat (List.length rest))
             ++ " other errors)")%string
      end /\
    String.prefix (Error e) (multiError_Error m) = true.
Proof.
  intros Hm.
  destruct (roundRobinConnPool_Close_observed close p w [])
    as (log & E & _ & Hr).
  rewrite Hm in E, Hr.
  destruct (failures_some log) as (es & Hes).
  destruct (failures log) as [|o os] eqn:Ef; [discriminate|].
  injection Hr as ->.
  destruct es as [|e rest]; [discriminate|].
  cbn [map] in Hes.
  injection Hes as -> ->.
  pose proof (multiError_Error_failures e rest) as Hrender.
  exists log, e, rest. repeat split; try assumption.
  - intros [H|H]; [discriminate|].
    apply in_map_iff in H as (x & Hx & _). discriminate.
  - rewrite fold_Error_range by lia. cbn [snd].
    change (Some e :: map Some rest) with (map Some (e :: rest)).
    rewrite nonnil_map_Some. cbn [List.length]. lia.
  - rewrite Hrender.
    destruct rest as [|e2 [|e3 rest]];
      [apply prefix_refl | apply prefix_app | apply prefix_app].
Qed.

End Facts.


(** * The properties on concrete pools *)

(** ** Rendering: the examples of the specification *)

(** The four examples of the specification, nil entries, and a count of
    two digits. *)
Example multiError_Error_examples :
  multiError_Error ([] : multiError string) = "(0 errors)" /\
  multiError_Error [Some "x"] = "x" /\
  multiError_Error [Some "x"; Some "y"] = "x (and 1 other error)" /\
  multiError_Error [Some "x"; Some "y"; Some "z"] = "x (and 2 other errors)" /\
  multiError_Error [None; Some "x"; None; Some "y"] = "x (and 1 other error)" /\
  multiError_Error (repeat (Some "x") 12) = "x (and 11 other errors)".
Proof. repeat split. Qed.

(** ** Selection *)

(** The contract of [Conn] on the pool [A, B, C] of the specification. *)
Lemma roundRobinConnPool_Conn_contract_witness :
  1 <= Z.of_nat (List.length ["A"; "B"; "C"]) < 2 ^ 32 /\
  map (fun K => kth_Conn K (RoundRobin (roundRobinConnPool_new ["A"; "B"; "C"])))
      [1; 2; 3; 4]%positive
  = [Ok "B"; Ok "C"; Ok "A"; Ok "B"].
Proof.
  assert (H : 1 <= Z.of_nat (List.length ["A"; "B"; "C"]) < 2 ^ 32)
    by (cbn; lia).
  split; [exact H|].
  destruct (roundRobinConnPool_Conn_contract ["A"; "B"; "C"] 0 H)
    as (_ & _ & _ & Hexample).
  exact (Hexample "A" "B" "C" eq_refl).
Defined.

(** A first handle followed by [n] copies of a second one, [n = 2^32]:
    the divisor [uint32(len)] is 1, every call selects index 0, and the
    handle at index 1 mod N is the second one. *)
Lemma oversized_first {ClientConn : Type} (a b : ClientConn) (n : nat) :
  Z.of_nat n = 2 ^ 32 ->
  1 <= Z.of_nat (List.length (a :: repeat b n)) /\
  roundRobinConnPool_Conn (roundRobinConnPool_new (a :: repeat b n)) =
    Ok (a, {| conns := a :: repeat b n; idx := 1 |}) /\
  nth_error (a :: repeat b n)
    (Z.to_nat (1 mod Z.of_nat (List.length (a :: repeat b n)))) = Some b.
Proof.
  intros Hn.
  assert (Hlen : Z.of_nat (List.length (a :: repeat b n)) = 2 ^ 32 + 1)
    by (cbn [List.length]; rewrite repeat_length; lia).
  split; [|split].
  - rewrite Hlen. lia.
  - unfold roundRobinConnPool_Conn, roundRobinConnPool_new.
    cbn [conns idx]. rewrite Hlen. reflexivity.
  - rewrite Hlen. change (Z.to_nat (1 mod (2 ^ 32 + 1))) with 1%nat.
    destruct n as [|n]; [discriminate|reflexivity].
Qed.

(** The length 2^32 as a [nat], never computed. *)
Lemma two_to_32_nat : Z.of_nat (Z.to_nat 4294967296) = 2 ^ 32.
Proof. apply Z2Nat.id. discriminate. Qed.

(** C1 as stated fails beyond the range of [uint32]: on a pool of
    2^32 + 1 handles the first call returns the first handle, while the
    handle at index (counter mod N) = 1 is another one. *)
Lemma roundRobinConnPool_Conn_oversized :
  1 <= Z.of_nat (List.length oversized) /\
  roundRobinConnPool_Conn (roundRobinConnPool_new oversized) =
    Ok ("A", {| conns := oversized; idx := 1 |}) /\
  nth_error oversized
    (Z.to_nat (1 mod Z.of_nat (List.length oversized))) = Some "B" /\
  "A" <> "B".
Proof.
  destruct (oversized_first "A" "B" (Z.to_nat 4294967296) two_to_32_nat)
    as (Hl & Hc & Hn).
  split; [exact Hl|]. split; [exact Hc|]. split; [exact Hn|].
  intros H. inversion H.
Qed.

(** C6 as stated fails on the round-robin pool: a call leaves the pool
    with another counter than it had. *)
Lemma Conn_moves_the_counter :
  Conn (RoundRobin {| conns := ["A"; "B"]; idx := 0 |}) =
    Ok ("B", RoundRobin {| conns := ["A"; "B"]; idx := 1 |}) /\
  RoundRobin {| conns := ["A"; "B"]; idx := 1 |} <>
  RoundRobin {| conns := ["A"; "B"]; idx := 0 |}.
Proof. split; [reflexivity|discriminate]. Qed.

(** The effects of [Conn] on a single pool, and on a round-robin pool
    whose counter is about to wrap. *)
Lemma Conn_effects_witness :
  Conn (Single {| conn := "A" |}) = Ok ("A", Single {| conn := "A" |}) /\
  exists c,
    Conn (RoundRobin {| conns := ["A"; "B"]; idx := 4294967295 |}) =
      Ok (c, RoundRobin {| conns := ["A"; "B"];
                           idx := uint32 (4294967295 + 1) |}) /\
    In c ["A"; "B"].
Proof.
  split.
  - exact (Conn_effects (Single {| conn := "A" |})).
  - apply (Conn_effects (RoundRobin {| conns := ["A"; "B"];
                                       idx := 4294967295 |})).
    vm_compute. discriminate.
Defined.

(** C7 as stated fails where the counter wraps and N does not divide
    2^32: the call number 2^32 on the pool [A, B, C] stores the counter 0
    and returns A, the handle at index 0, while 2^32 mod 3 = 1 is the
    index of B. *)
Lemma kth_Conn_wrap_changes_phase :
  kth_Conn 4294967296 (RoundRobin (roundRobinConnPool_new ["A"; "B"; "C"])) =
    Ok "A" /\
  nth_error ["A"; "B"; "C"] (Z.to_nat (4294967296 mod 3)) = Some "B" /\
  (4294967296 mod 2 ^ 32) mod 3 <> 4294967296 mod 3.
Proof.
  assert (Hn : uint32 (Z.of_nat (List.length ["A"; "B"; "C"])) <> 0)
    by (vm_compute; discriminate).
  destruct (kth_Conn_roundRobin ["A"; "B"; "C"] 4294967296 Hn)
    as (c & E & Hc).
  vm_compute in Hc. injection Hc as <-.
  split; [exact E|]. split; [reflexivity|]. vm_compute. discriminate.
Qed.

(** The call number 2^32 + 5 on the pool [A, B, C]. *)
Lemma kth_Conn_wraps_witness :
  1 <= Z.of_nat (List.length ["A"; "B"; "C"]) < 2 ^ 32 /\
  exists c,
    kth_Conn 4294967301 (RoundRobin (roundRobinConnPool_new ["A"; "B"; "C"]))
      = Ok c /\
    nth_error ["A"; "B"; "C"]
      (Z.to_nat ((4294967301 mod 2 ^ 32)
                 mod Z.of_nat (List.length ["A"; "B"; "C"]))) = Some c /\
    (4294967301 < 2 ^ 32 \/ (Z.of_nat (List.length ["A"; "B"; "C"]) | 2 ^ 32) ->
     nth_error ["A"; "B"; "C"]
       (Z.to_nat (4294967301 mod Z.of_nat (List.length ["A"; "B"; "C"])))
     = Some c).
Proof.
  assert (H : 1 <= Z.of_nat (List.length ["A"; "B"; "C"]) < 2 ^ 32)
    by (cbn; lia).
  split; [exact H|].
  exact (kth_Conn_wraps ["A"; "B"; "C"] 4294967301 H).
Defined.

(** A pool of [n] handles, [n = 2^32]: the divisor [uint32(len)] is 0. *)
Lemma unaddressable_panics {ClientConn : Type} (a : ClientConn) (n : nat) :
  Z.of_nat n = 2 ^ 32 ->
  1 <= Z.of_nat (List.length (repeat a n)) /\
  roundRobinConnPool_Conn (roundRobinConnPool_new (repeat a n)) =
    Panic IntegerDivideByZero.
Proof.
  intros Hn.
  assert (Hlen : Z.of_nat (List.length (repeat a n)) = 2 ^ 32)
    by (rewrite repeat_length; exact Hn).
  split.
  - rewrite Hlen. lia.
  - apply roundRobinConnPool_Conn_zero. cbn [conns roundRobinConnPool_new].
    rewrite Hlen. reflexivity.
Qed.

(** C9 as stated fails on a pool of exactly 2^32 handles: the call does
    not return, it panics on the division. *)
Lemma roundRobinConnPool_Conn_unaddressable :
  1 <= Z.of_nat (List.length unaddressable) /\
  roundRobinConnPool_Conn (roundRobinConnPool_new unaddressable) =
    Panic IntegerDivideByZero.
Proof.
  exact (unaddressable_panics "A" (Z.to_nat 4294967296) two_to_32_nat).
Qed.

(** The bounds on the pool [A, B, C] with the counter at 7. *)
Lemma roundRobinConnPool_Conn_in_bounds_witness :
  (forall i : Z, 0 <= i mod uint32 (Z.of_nat (List.length ["A"; "B"; "C"]))
                   < Z.of_nat (List.length ["A"; "B"; "C"])) /\
  exists c p',
    roundRobinConnPool_Conn {| conns := ["A"; "B"; "C"]; idx := 7 |} =
      Ok (c, p') /\
    conns p' = ["A"; "B"; "C"] /\ In c ["A"; "B"; "C"].
Proof.
  apply (roundRobinConnPool_Conn_in_bounds
           {| conns := ["A"; "B"; "C"]; idx := 7 |}).
  vm_compute. discriminate.
Defined.

(** ** Teardown *)

(** [Close] on [A, B, C] when B and C fail, and when none fails. *)
Example roundRobinConnPool_Close_example :
  roundRobinConnPool_Close (observed (scripted demo_outcome))
    (roundRobinConnPool_new ["A"; "B"; "C"]) (0%nat, []) =
  (Some [Some "b failed"; Some "c failed"],
   (3%nat, [("A", None); ("B", Some "b failed"); ("C", Some "c failed")])) /\
  roundRobinConnPool_Close (scripted (fun _ => None))
    (roundRobinConnPool_new ["A"; "B"; "C"]) 0%nat = (None, 3%nat).
Proof. split; reflexivity. Qed.

(** The error of [Close] when B and C fail to close. *)
Lemma roundRobinConnPool_Close_error_witness :
  fst (roundRobinConnPool_Close (scripted demo_outcome)
         (roundRobinConnPool_new ["A"; "B"; "C"]) 0%nat) =
    Some [Some "b failed"; Some "c failed"] /\
  exists (log : close_log string string) (e : string) (rest : list string),
    roundRobinConnPool_Close (observed (scripted demo_outcome))
      (roundRobinConnPool_new ["A"; "B"; "C"]) (0%nat, []) =
      (Some [Some "b failed"; Some "c failed"],
       (snd (roundRobinConnPool_Close (scripted demo_outcome)
               (roundRobinConnPool_new ["A"; "B"; "C"]) 0%nat), log)) /\
    failures log = [Some "b failed"; Some "c failed"] /\
    [Some "b failed"; Some "c failed"] = Some e :: map Some rest /\
    ~ In None [Some "b failed"; Some "c failed"] /\
    snd (fold_left Error_range [Some "b failed"; Some "c failed"]
           (EmptyString, 0)) = 1 + Z.of_nat (List.length rest) /\
    multiError_Error [Some "b failed"; Some "c failed"] =
      match rest with
      | [] => Error e
      | [_] => (Error e ++ " (and 1 other error)")%string
      | _ =>
          (Error e ++ " (and " ++ fmt_d (Z.of_nat (List.length rest))
             ++ " other errors)")%string
      end /\
    String.prefix (Error e)
      (multiError_Error [Some "b failed"; Some "c failed"]) = true.
Proof.
  assert (H : fst (roundRobinConnPool_Close (scripted demo_outcome)
                     (roundRobinConnPool_new ["A"; "B"; "C"]) 0%nat) =
              Some [Some "b failed"; Some "c failed"]) by reflexivity.
  split; [exact H|].
  exact (roundRobinConnPool_Close_error (scripted demo_outcome)
           (roundRobinConnPool_new ["A"; "B"; "C"]) 0%nat
           [Some "b failed"; Some "c failed"] H).
Defined.

(** * Further properties of the pools *)

Section Further.

Context {ClientConn Err : Type} `{ErrError : error_iface Err}.

(** ** The counter over many calls *)

Lemma after_calls_Single (s : singleConnPool ClientConn) (k : N) :
  after_calls k (Single s) = Ok (Single s).
Proof.
  unfold after_calls. induction k as [|k IH] using N.peano_ind.
  - reflexivity.
  - now rewrite N.iter_succ, IH.
Qed.

(** With a divisor of zero no call returns, neither the first nor a later
    one. *)
Lemma after_calls_zero (r : roundRobinConnPool ClientConn) (k : N) :
  uint32 (Z.of_nat (List.length (conns r))) = 0 ->
  after_calls (N.succ k) (RoundRobin r) = Panic IntegerDivideByZero.
Proof.
  intros Hz. unfold after_calls.
  induction k as [|k IH] using N.peano_ind.
  - cbn. now rewrite roundRobinConnPool_Conn_zero.
  - now rewrite N.iter_succ, IH.
Qed.

(** From any counter, in the range of [uint32] or not, one call or more
    leave the counter wrapped. *)
Lemma after_calls_roundRobin_any (cs : list ClientConn) (i : Z) (k : N) :
  uint32 (Z.of_nat (List.length cs)) <> 0 ->
  after_calls (N.succ k) (RoundRobin {| conns := cs; idx := i |}) =
  Ok (RoundRobin {| conns := cs; idx := uint32 (i + Z.of_N (N.succ k)) |}).
Proof.
  intros Hn. unfold after_calls.
  induction k as [|k IH] using N.peano_ind.
  - cbn [N.succ N.iter Pos.iter Conn_next bind Conn].
    destruct (roundRobinConnPool_Conn_Ok {| conns := cs; idx := i |} Hn)
      as (c & E & _).
    rewrite E. reflexivity.
  - rewrite N.iter_succ, IH. cbn [Conn_next bind Conn].
    destruct (roundRobinConnPool_Conn_Ok
                {| conns := cs; idx := uint32 (i + Z.of_N (N.succ k)) |} Hn)
      as (c & E & _).
    rewrite E. cbn [bind fst snd idx conns]. rewrite uint32_add_l.
    rewrite (N2Z.inj_succ (N.succ k)). unfold Z.succ.
    now rewrite Z.add_assoc.
Qed.

(** The [K]-th call from any counter selects by the counter it stores. *)
Lemma kth_Conn_roundRobin_from (cs : list ClientConn) (i : Z) (K : positive) :
  uint32 (Z.of_nat (List.length cs)) <> 0 ->
  exists c,
    kth_Conn K (RoundRobin {| conns := cs; idx := i |}) = Ok c /\
    nth_error cs
      (Z.to_nat (uint32 (i + Z.pos K)
                 mod uint32 (Z.of_nat (List.length cs)))) = Some c.
Proof.
  intros Hn. unfold kth_Conn.
  destruct (Pos.pred_N K) as [|q] eqn:EK.
  - assert (K = 1%positive) as -> by (destruct K; cbn in EK; congruence).
    cbn [after_calls N.iter bind Conn].
    destruct (roundRobinConnPool_Conn_Ok {| conns := cs; idx := i |} Hn)
      as (c & E & Hc).
    rewrite E. exists c. split; [reflexivity|exact Hc].
  - assert (HK : Z.pos K = Z.of_N (N.pos q) + 1)
      by (rewrite <- EK, N.pos_pred_spec; lia).
    rewrite <- (N.succ_pred (N.pos q)) by discriminate.
    rewrite after_calls_roundRobin_any by assumption.
    rewrite N.succ_pred by discriminate.
    cbn [bind Conn].
    destruct (roundRobinConnPool_Conn_Ok
                {| conns := cs; idx := uint32 (i + Z.of_N (N.pos q)) |} Hn)
      as (c & E & Hc).
    rewrite E. exists c. split; [reflexivity|].
    cbn [idx conns] in Hc. rewrite uint32_add_l in Hc.
    rewrite HK. now rewrite Z.add_assoc.
Qed.

Lemma kth_Conn_zero (r : roundRobinConnPool ClientConn) (K : positive) :
  uint32 (Z.of_nat (List.length (conns r))) = 0 ->
  kth_Conn K (RoundRobin r) = Panic IntegerDivideByZero.
Proof.
  intros Hz. unfold kth_Conn.
  destruct (Pos.pred_N K) as [|q] eqn:EK.
  - cbn. now rewrite roundRobinConnPool_Conn_zero.
  - rewrite <- (N.succ_pred (N.pos q)) by discriminate.
    now rewrite after_calls_zero.
Qed.

(** X1: [Conn()] of a round-robin pool panics, on the division, exactly
    when the handle count is a multiple of 2^32; so on an empty pool every
    call panics, whatever the counter. *)
Theorem roundRobinConnPool_Conn_panics_iff (p : roundRobinConnPool ClientConn) :
  (roundRobinConnPool_Conn p = Panic IntegerDivideByZero <->
   Z.of_nat (List.length (conns p)) mod 2 ^ 32 = 0) /\
  (forall (i : Z) (K : positive),
      kth_Conn K (RoundRobin {| conns := @nil ClientConn; idx := i |}) =
      Panic IntegerDivideByZero).
Proof.
  split.
  - split.
    + intros H.
      destruct (Z.eq_dec (uint32 (Z.of_nat (List.length (conns p)))) 0)
        as [Hz|Hn]; [exact Hz|].
      destruct (roundRobinConnPool_Conn_Ok p Hn) as (c & E & _).
      rewrite E in H. discriminate.
    + intros Hz. now apply roundRobinConnPool_Conn_zero.
  - intros i K. now apply kth_Conn_zero.
Qed.

(** X2: the handle a call returns depends on the call number modulo 2^32
    only: for every pool, of either kind and in any state, the call number
    K + 2^32 returns what the call number K returns. *)
Theorem kth_Conn_period (p : ConnPool ClientConn) (K : positive) :
  kth_Conn (K + 4294967296) p = kth_Conn K p.
Proof.
  destruct p as [s|[cs i]].
  - unfold kth_Conn. now rewrite !after_calls_Single.
  - destruct (Z.eq_dec (uint32 (Z.of_nat (List.length cs))) 0) as [Hz|Hn].
    + now rewrite !kth_Conn_zero.
    + destruct (kth_Conn_roundRobin_from cs i (K + 4294967296) Hn)
        as (c1 & E1 & H1).
      destruct (kth_Conn_roundRobin_from cs i K Hn) as (c2 & E2 & H2).
      rewrite E1, E2. f_equal.
      assert (Hw : uint32 (i + Z.pos (K + 4294967296)) = uint32 (i + Z.pos K)).
      { unfold uint32. rewrite Pos2Z.inj_add.
        replace (i + (Z.pos K + 4294967296))
          with (i + Z.pos K + 1 * 2 ^ 32) by lia.
        apply Z.mod_add. lia. }
      rewrite Hw in H1. congruence.
Qed.

(** X3: [k] calls on a round-robin pool leave the handle sequence as it
    was and the counter at (i + k) mod 2^32; after 2^32 calls the pool is
    in the state it started from. *)
Theorem after_calls_counter (cs : list ClientConn) (i : Z) (k : N) :
  uint32 (Z.of_nat (List.length cs)) <> 0 ->
  0 <= i < 2 ^ 32 ->
  after_calls k (RoundRobin {| conns := cs; idx := i |}) =
    Ok (RoundRobin {| conns := cs; idx := (i + Z.of_N k) mod 2 ^ 32 |}) /\
  after_calls 4294967296 (RoundRobin {| conns := cs; idx := i |}) =
    Ok (RoundRobin {| conns := cs; idx := i |}).
Proof.
  intros Hn Hi. split.
  - now apply after_calls_roundRobin.
  - rewrite after_calls_roundRobin by assumption.
    do 3 f_equal. unfold uint32.
    replace (i + Z.of_N 4294967296) with (i + 1 * 2 ^ 32) by reflexivity.
    rewrite Z.mod_add by lia. now apply Z.mod_small.
Qed.

(** ** Rotation *)

(** The entries of a sequence rotated left by [r]. *)
Lemma rotation_nth (cs : list ClientConn) (r j : nat) :
  (r < List.length cs)%nat ->
  (j < List.length cs)%nat ->
  nth_error (skipn r cs ++ firstn r cs) j =
  nth_error cs
    (Z.to_nat ((Z.of_nat r + Z.of_nat j) mod Z.of_nat (List.length cs))).
Proof.
  intros Hr Hj.
  destruct (Nat.lt_ge_cases j (List.length cs - r)) as [Hlt|Hge].
  - rewrite nth_error_app1 by (rewrite length_skipn; lia).
    rewrite nth_error_skipn, Z.mod_small by lia.
    f_equal. lia.
  - rewrite nth_error_app2 by (rewrite length_skipn; lia).
    rewrite length_skipn, nth_error_firstn.
    assert (Hb : (j - (List.length cs - r) <? r)%nat = true)
      by (apply Nat.ltb_lt; lia).
    rewrite Hb.
    replace (Z.of_nat r + Z.of_nat j)
      with (Z.of_nat r + Z.of_nat j - Z.of_nat (List.length cs)
            + 1 * Z.of_nat (List.length cs)) by lia.
    rewrite Z.mod_add, Z.mod_small by lia.
    f_equal. lia.
Qed.

(** [n] calls in a row that do not wrap the counter: the [j]-th of them
    selects by the counter plus [j]. *)
Lemma Conn_many_roundRobin (cs : list ClientConn) (n : nat) (i : Z) :
  1 <= Z.of_nat (List.length cs) < 2 ^ 32 ->
  0 <= i ->
  i + Z.of_nat n < 2 ^ 32 ->
  exists l,
    Conn_many n (RoundRobin {| conns := cs; idx := i |}) =
      Ok (l, RoundRobin {| conns := cs; idx := i + Z.of_nat n |}) /\
    List.length l = n /\
    forall j, (j < n)%nat ->
      nth_error l j =
      nth_error cs
        (Z.to_nat ((i + 1 + Z.of_nat j) mod Z.of_nat (List.length cs))).
Proof.
  intros HN. revert i. induction n as [|n IH]; intros i Hi Hw.
  - exists []. cbn [Conn_many]. rewrite Z.add_0_r.
    repeat split. intros j Hj. lia.
  - assert (Hd : uint32 (Z.of_nat (List.length cs)) = Z.of_nat (List.length cs))
      by (apply divisor_small; lia).
    assert (Hn : uint32 (Z.of_nat (List.length cs)) <> 0) by lia.
    destruct (roundRobinConnPool_Conn_Ok {| conns := cs; idx := i |} Hn)
      as (c & E & Hc).
    cbn [conns idx] in E, Hc.
    rewrite Hd, (uint32_small (i + 1)) in Hc by lia.
    rewrite (uint32_small (i + 1)) in E by lia.
    destruct (IH (i + 1)) as (l & El & Hl & Hnth); [lia|lia|].
    exists (c :: l). cbn [Conn_many Conn bind]. rewrite E.
    cbn [bind fst snd]. rewrite El. cbn [bind fst snd].
    split; [|split].
    + replace (i + Z.of_nat (S n)) with (i + 1 + Z.of_nat n) by lia.
      reflexivity.
    + cbn [List.length]. now rewrite Hl.
    + intros [|j] Hj.
      * cbn [nth_error]. rewrite Z.add_0_r. now symmetry.
      * cbn [nth_error]. rewrite Hnth by lia.
        replace (i + 1 + Z.of_nat (S j)) with (i + 1 + 1 + Z.of_nat j) by lia.
        reflexivity.
Qed.

(** X4: N calls in a row on a round-robin pool of N handles, 1 <= N < 2^32,
    that do not wrap the counter return every handle of the pool exactly
    once: the handle sequence rotated left by (counter + 1) mod N. *)
Theorem Conn_many_rotation (cs : list ClientConn) (i : Z) :
  1 <= Z.of_nat (List.length cs) < 2 ^ 32 ->
  0 <= i ->
  i + Z.of_nat (List.length cs) < 2 ^ 32 ->
  let r := Z.to_nat ((i + 1) mod Z.of_nat (List.length cs)) in
  Conn_many (List.length cs) (RoundRobin {| conns := cs; idx := i |}) =
    Ok (skipn r cs ++ firstn r cs,
        RoundRobin {| conns := cs; idx := i + Z.of_nat (List.length cs) |}) /\
  Permutation (skipn r cs ++ firstn r cs) cs.
Proof.
  intros HN Hi Hw r.
  assert (Hr : 0 <= (i + 1) mod Z.of_nat (List.length cs)
               < Z.of_nat (List.length cs))
    by (apply Z.mod_pos_bound; lia).
  assert (Hr' : (r < List.length cs)%nat) by (subst r; lia).
  split.
  - destruct (Conn_many_roundRobin cs (List.length cs) i HN Hi Hw)
      as (l & El & Hl & Hnth).
    rewrite El. do 2 f_equal.
    apply nth_error_ext. intros j.
    destruct (Nat.lt_ge_cases j (List.length cs)) as [Hj|Hj].
    + rewrite Hnth, rotation_nth by assumption.
      subst r. rewrite Z2Nat.id by lia.
      now rewrite Zplus_mod_idemp_l.
    + transitivity (@None ClientConn).
      * apply nth_error_None. lia.
      * symmetry. apply nth_error_None.
        rewrite length_app, length_skipn, firstn_length_le by lia. lia.
  - rewrite Permutation_app_comm. now rewrite firstn_skipn.
Qed.

(** ** One handle *)

(** X5: a round-robin pool over one handle is indistinguishable from the
    single pool over it: every call returns the handle, whatever the
    counter; [Close()] leaves the same world, is [nil] for the one when it
    is for the other, and carries the same message. *)
Theorem roundRobin_of_one_as_single {W : Type}
    (close : closer ClientConn Err W) (c : ClientConn) (i : Z) (w : W)
    (K : positive) :
  kth_Conn K (RoundRobin {| conns := [c]; idx := i |}) = Ok c /\
  kth_Conn K (Single {| conn := c |}) = Ok c /\
  snd (Close close (RoundRobin {| conns := [c]; idx := i |}) w) =
    snd (Close close (Single {| conn := c |}) w) /\
  option_map Error
    (fst (Close close (RoundRobin {| conns := [c]; idx := i |}) w)) =
  option_map Error (fst (Close close (Single {| conn := c |}) w)).
Proof.
  split; [|split; [|split]].
  - assert (Hn : uint32 (Z.of_nat (List.length [c])) <> 0)
      by (vm_compute; discriminate).
    destruct (kth_Conn_roundRobin_from [c] i K Hn) as (c' & E & Hc).
    change (uint32 (Z.of_nat (List.length [c]))) with 1 in Hc.
    rewrite Z.mod_1_r in Hc. cbn in Hc. congruence.
  - unfold kth_Conn. now rewrite after_calls_Single.
  - unfold Close, roundRobinConnPool_Close, singleConnPool_Close.
    cbn [conns conn fold_left Close_range].
    now destruct (close c w) as [[e|] w'].
  - unfold Close, roundRobinConnPool_Close, singleConnPool_Close.
    cbn [conns conn fold_left Close_range].
    now destruct (close c w) as [[e|] w'].
Qed.

(** ** Teardown, again *)

(** X6: [Close()] keeps no record of having run: a second [Close()] calls
    [Close] on every handle again, in the same order. *)
Theorem roundRobinConnPool_Close_twice {W : Type}
    (close : closer ClientConn Err W) (p : roundRobinConnPool ClientConn)
    (w : W) (log0 : close_log ClientConn Err) :
  exists log,
    snd (snd (roundRobinConnPool_Close (observed close) p
                (snd (roundRobinConnPool_Close (observed close) p
                        (w, log0)))))
      = log0 ++ log /\
    map fst log = conns p ++ conns p.
Proof.
  destruct (roundRobinConnPool_Close_observed close p w log0)
    as (log1 & E1 & Hm1 & _).
  destruct (roundRobinConnPool_Close_observed close p
              (snd (roundRobinConnPool_Close close p w)) (log0 ++ log1))
    as (log2 & E2 & Hm2 & _).
  exists (log1 ++ log2). split.
  - rewrite app_assoc.
    etransitivity; [|exact (f_equal (fun x => snd (snd x)) E2)].
    exact (f_equal
             (fun x => snd (snd (roundRobinConnPool_Close (observed close) p
                                   (snd x)))) E1).
  - now rewrite map_app, Hm1, Hm2.
Qed.

(** X7: the [multiError] that [Close()] returns has at least one entry and
    at most one entry per handle; on an empty pool [Close()] returns
    [nil]. *)
Theorem roundRobinConnPool_Close_size {W : Type}
    (close : closer ClientConn Err W) (p : roundRobinConnPool ClientConn)
    (w : W) :
  match fst (roundRobinConnPool_Close close p w) with
  | Some m =>
      (1 <= List.length m <= List.length (conns p))%nat
  | None => True
  end.
Proof.
  destruct (roundRobinConnPool_Close_observed close p w [])
    as (log & _ & Hm & Hr).
  rewrite Hr.
  assert (Hle : (List.length (failures log) <= List.length (conns p))%nat).
  { rewrite <- Hm, length_map. unfold failures.
    rewrite <- (length_map snd log). apply filter_length_le. }
  destruct (failures log) as [|e es]; [exact I|].
  cbn [List.length] in *. lia.
Qed.

(** ** Rendering, again *)

(** X8: the rendering of a [multiError] keeps the message of its first
    non-nil entry and the number of its non-nil entries and nothing else:
    two that agree on both render alike. *)
Theorem multiError_Error_first_and_count (m m' : multiError Err) :
  option_map Error (hd_error (nonnil m)) =
    option_map Error (hd_error (nonnil m')) ->
  List.length (nonnil m) = List.length (nonnil m') ->
  multiError_Error m = multiError_Error m'.
Proof.
  intros Hhd Hlen. unfold multiError_Error.
  rewrite !fold_Error_range by lia. cbn [Z.eqb].
  rewrite Hlen.
  destruct (nonnil m) as [|e es], (nonnil m') as [|e' es'];
    try discriminate; [reflexivity|].
  cbn in Hhd. injection Hhd as ->. reflexivity.
Qed.

(** X9: use does not change teardown: after any number of [Conn()] calls
    that returned, [Close()] does to the world, and returns, what it
    would have before them. *)
Theorem Close_after_calls {W : Type} (close : closer ClientConn Err W)
    (p p' : ConnPool ClientConn) (k : N) (w : W) :
  after_calls k p = Ok p' ->
  Close close p' w = Close close p w.
Proof.
  intros H. destruct p as [s|[cs i]].
  - rewrite after_calls_Single in H. now injection H as <-.
  - destruct (N.eq_dec k 0) as [->|Hk].
    + cbn in H. now injection H as <-.
    + rewrite <- (N.succ_pred k) in H by assumption.
      destruct (Z.eq_dec (uint32 (Z.of_nat (List.length cs))) 0) as [Hz|Hn].
      * rewrite after_calls_zero in H by assumption. discriminate.
      * rewrite after_calls_roundRobin_any in H by assumption.
        injection H as <-. reflexivity.
Qed.

End Further.

(** ** The further properties on concrete pools *)

(** Three calls from the last counter value, and a full period. *)
Lemma after_calls_counter_witness :
  after_calls 3 (RoundRobin {| conns := ["A"; "B"]; idx := 4294967295 |}) =
    Ok (RoundRobin {| conns := ["A"; "B"];
                      idx := (4294967295 + Z.of_N 3) mod 2 ^ 32 |}) /\
  after_calls 4294967296
    (RoundRobin {| conns := ["A"; "B"]; idx := 4294967295 |}) =
    Ok (RoundRobin {| conns := ["A"; "B"]; idx := 4294967295 |}).
Proof.
  apply (after_calls_counter ["A"; "B"] 4294967295 3).
  - vm_compute. discriminate.
  - lia.
Defined.

(** Three calls on [A, B, C] from the counter 4. *)
Lemma Conn_many_rotation_witness :
  Conn_many 3 (RoundRobin {| conns := ["A"; "B"; "C"]; idx := 4 |}) =
    Ok (["C"; "A"; "B"],
        RoundRobin {| conns := ["A"; "B"; "C"]; idx := 7 |}) /\
  Permutation ["C"; "A"; "B"] ["A"; "B"; "C"].
Proof.
  assert (H1 : 1 <= Z.of_nat (List.length ["A"; "B"; "C"]) < 2 ^ 32)
    by (cbn; lia).
  assert (H2 : 0 <= 4) by lia.
  assert (H3 : 4 + Z.of_nat (List.length ["A"; "B"; "C"]) < 2 ^ 32)
    by (cbn; lia).
  exact (Conn_many_rotation ["A"; "B"; "C"] 4 H1 H2 H3).
Defined.

(** Two aggregates with the same first message and the same count. *)
Lemma multiError_Error_first_and_count_witness :
  multiError_Error [Some "x"; None; Some "y"] =
  multiError_Error [None; Some "x"; Some "z"].
Proof.
  apply multiError_Error_first_and_count; reflexivity.
Defined.

(** [Close] after five calls on [A, B, C]. *)
Lemma Close_after_calls_witness :
  Close (scripted demo_outcome)
    (RoundRobin {| conns := ["A"; "B"; "C"]; idx := 5 |}) 0%nat =
  Close (scripted demo_outcome)
    (RoundRobin (roundRobinConnPool_new ["A"; "B"; "C"])) 0%nat.
Proof.
  apply (Close_after_calls (scripted demo_outcome)
           (RoundRobin (roundRobinConnPool_new ["A"; "B"; "C"]))
           (RoundRobin {| conns := ["A"; "B"; "C"]; idx := 5 |}) 5).
  reflexivity.
Defined.
